(** * Longest palindromes at every centre: the linear-time engine and its
      quadratic oracle

    A shallow embedding of [longest_palindrome.py].  Python integers are
    unbounded, so they are modelled by [Z]; Python lists by [list]; list
    subscription by [index], which keeps Python's treatment of negative
    subscripts and raises [IndexError] out of range.  The [while] loops are
    run on fuel, the [for] loops over the list their [range] denotes. *)

From Stdlib Require Import ZArith Lia.
From stdpp Require Import base numbers list strings.

Local Open Scope Z_scope.

(** ** Outcomes of a Python computation *)

Inductive result (T : Type) : Type :=
  | Ok (v : T)
  | IndexError
  | OutOfFuel.

Arguments Ok {T} v.
Arguments IndexError {T}.
Arguments OutOfFuel {T}.

#[global] Instance result_ret : MRet result := fun T v => Ok v.

#[global] Instance result_bind : MBind result := fun T U k r =>
  match r with
  | Ok v => k v
  | IndexError => IndexError
  | OutOfFuel => OutOfFuel
  end.

(** ** Python primitives *)

(** [len(l)]. *)
Definition len {T : Type} (l : list T) : Z := Z.of_nat (length l).

(** [l[j]]: a negative subscript counts from the end of the list. *)
Definition index {T : Type} (l : list T) (j : Z) : result T :=
  let k := if j <? 0 then j + len l else j in
  if k <? 0 then IndexError
  else match l !! Z.to_nat k with
       | Some x => Ok x
       | None => IndexError
       end.

(** [range(size)]. *)
Definition range (size : Z) : list Z :=
  (fun k => Z.of_nat k) <$> seq 0 (Z.to_nat size).

(** [range(start, stop, -1)]. *)
Definition range_down (start stop : Z) : list Z :=
  (fun k => start - Z.of_nat k) <$> seq 0 (Z.to_nat (start - stop)).

(** [max(l)], which raises on the empty list. *)
Definition max_of (l : list Z) : option Z :=
  match l with
  | [] => None
  | x :: r => Some (fold_left Z.max r x)
  end.

(** [seq[a:b]] for subscripts [0 <= a]. *)
Definition slice {T : Type} (l : list T) (a b : Z) : list T :=
  take (Z.to_nat (b - a)) (drop (Z.to_nat a) l).

Section Palindromes.

Context {A : Type} `{EqDecision A}.

(** [x == y] on the elements of the sequence. *)
Definition eqb (x y : A) : bool := bool_decide (x = y).

(** ** The linear engine *)

(** The variables of the main loop. *)
Record state : Type := State {
  cursor : Z;
  pal_len : Z;
  best_lengths : list Z
}.

(** The two ways out of the inner [for]: by [break], with the new [pal_len],
    or normally, into its [else] block. *)
Inductive for_exit : Type :=
  | Break (d : Z) (bl : list Z)
  | Exhausted (bl : list Z).

(** The inner [for j in range(start, end, -1)]. *)
Fixpoint inner_loop (end_ : Z) (js : list Z) (bl : list Z) : result for_exit :=
  match js with
  | [] => Ok (Exhausted bl)
  | j :: js' =>
      let d := j - end_ - 1 in
      x ← index bl j;
      if x =? d then Ok (Break d bl)
      else inner_loop end_ js' (bl ++ [Z.min d x])
  end.

(** The test [i > pal_len and seq[i - pal_len - 1] == seq[i]]. *)
Definition can_extend (seq : list A) (i p : Z) : result bool :=
  if i >? p then
    a ← index seq (i - p - 1);
    b ← index seq i;
    Ok (eqb a b)
  else Ok false.

(** The backward scan that follows the first [append] of an iteration, with
    its bounds [start] and [end]. *)
Definition scan (p : Z) (bl : list Z) : result for_exit :=
  let start := len bl - 2 in
  let end_ := start - p in
  inner_loop end_ (range_down start end_) bl.

(** The scan and the choice between [break] and [else]. *)
Definition emit (i p : Z) (bl : list Z) : result state :=
  r ← scan p bl;
  match r with
  | Break d bl' => Ok (State i d bl')
  | Exhausted bl' => Ok (State (i + 1) 1 bl')
  end.

(** One iteration of [while i < len_seq]. *)
Definition loop_body (seq : list A) (st : state) : result state :=
  let i := cursor st in
  let p := pal_len st in
  c ← can_extend seq i p;
  if c : bool then Ok (State (i + 1) (p + 2) (best_lengths st))
  else emit i p (best_lengths st ++ [p]).

(** [while i < len_seq]. *)
Fixpoint main_loop (fuel : nat) (seq : list A) (st : state) : result state :=
  if cursor st <? len seq then
    match fuel with
    | O => OutOfFuel
    | S fuel' => st' ← loop_body seq st; main_loop fuel' seq st'
    end
  else Ok st.

(** The closing [for i in range(start, end, -1)]. *)
Fixpoint final_loop (end_ : Z) (js : list Z) (bl : list Z) : result (list Z) :=
  match js with
  | [] => Ok bl
  | j :: js' =>
      let d := j - end_ - 1 in
      x ← index bl j;
      final_loop end_ js' (bl ++ [Z.min d x])
  end.

(** The code after the main loop. *)
Definition finalize (len_seq : Z) (st : state) : result (list Z) :=
  let bl := best_lengths st ++ [pal_len st] in
  let size := len bl in
  let start := size - 2 in
  let end_ := start - (2 * len_seq + 1 - size) in
  final_loop end_ (range_down start end_) bl.

Definition fast_with_fuel (fuel : nat) (seq : list A) : result (list Z) :=
  st ← main_loop fuel seq (State 0 0 []);
  finalize (len seq) st.

(** Every iteration of the main loop either advances the cursor or emits an
    entry, so [3 * len(seq) + 1] iterations are never exceeded. *)
Definition fast_longest_palindromes (seq : list A) : result (list Z) :=
  fast_with_fuel (3 * length seq + 1) seq.

(** ** The quadratic oracle *)

(** The test [start > 0 and end < len_seq and seq[start - 1] == seq[end]]. *)
Definition can_grow (seq : list A) (start end_ : Z) : result bool :=
  if start >? 0 then
    if end_ <? len seq then
      a ← index seq (start - 1);
      b ← index seq end_;
      Ok (eqb a b)
    else Ok false
  else Ok false.

(** The [while] of the oracle; it returns the final [(start, end)]. *)
Fixpoint expand (fuel : nat) (seq : list A) (start end_ : Z) : result (Z * Z) :=
  c ← can_grow seq start end_;
  if c : bool then
    match fuel with
    | O => OutOfFuel
    | S fuel' => expand fuel' seq (start - 1) (end_ + 1)
    end
  else Ok (start, end_).

(** The [for i in range(size)] of the oracle; [start] never exceeds
    [len(seq)], which bounds the iterations of the [while]. *)
Fixpoint naive_loop (seq : list A) (ks : list Z) (bl : list Z) : result (list Z) :=
  match ks with
  | [] => Ok bl
  | i :: ks' =>
      let start := i `div` 2 in
      let end_ := start + i `mod` 2 in
      '(start', end') ← expand (length seq) seq start end_;
      naive_loop seq ks' (bl ++ [end' - start'])
  end.

Definition naive_longest_palindromes (seq : list A) : result (list Z) :=
  let len_seq := len seq in
  let size := 2 * len_seq + 1 in
  naive_loop seq (range size) [].

End Palindromes.

(** A Python [str] as the sequence of its characters. *)
Definition chars (s : string) : list Ascii.ascii := String.list_ascii_of_string s.


(** ** Palindromes of a sequence, pointwise *)

Section Theory.

Context {A : Type} `{EqDecision A}.

Implicit Types (seq : list A) (bl : list Z) (a b t k : Z).

(** The element at position [t >= 0], when there is one. *)
Definition elt seq t : option A := seq !! Z.to_nat t.

(** [seq[a:b]] lies within the sequence and reads the same both ways. *)
Definition pal seq a b : Prop :=
  0 <= a /\ a <= b /\ b <= len seq /\
  forall t, a <= t < b -> elt seq t = elt seq (a + b - 1 - t).

(** [seq[a:b]] can grow by one element on each side. *)
Definition extends seq a b : Prop :=
  0 < a /\ b < len seq /\ elt seq (a - 1) = elt seq b.

Definition maximal seq a b : Prop := pal seq a b /\ ~ extends seq a b.

(** [L] is the length of the maximal palindrome whose centre has profile
    index [k]. *)
Definition longest_at seq k (L : Z) : Prop :=
  exists a b, a + b = k /\ b - a = L /\ maximal seq a b.

(** Every entry of a (partial) profile is the right one. *)
Definition correct seq bl : Prop :=
  forall (k : nat) (L : Z), bl !! k = Some L -> longest_at seq (Z.of_nat k) L.

(** *** The run of the engine *)

(** What the inner [for] leaves behind, for the maximal palindrome
    [seq[a:b]] just emitted. *)
Definition scanned seq a b (r : for_exit) : Prop :=
  match r with
  | Break d bl' =>
      0 <= d < b - a /\ pal seq (b - d) b /\
      len bl' = 2 * b - d /\ correct seq bl'
  | Exhausted bl' => len bl' = 2 * b + 1 /\ correct seq bl'
  end.

(** The loop invariant: [seq[i - pal_len : i]] is a palindrome, and the
    entries emitted so far are the right ones for all the centres to the left
    of its centre. *)
Definition invariant seq (st : state) : Prop :=
  pal seq (cursor st - pal_len st) (cursor st) /\
  len (best_lengths st) = 2 * cursor st - pal_len st /\
  correct seq (best_lengths st).

(** What is left to do: it decreases with every iteration. *)
Definition potential seq (st : state) : Z :=
  3 * len seq - 3 * cursor st + pal_len st.

(** The states in which the test of [while i < len_seq] is evaluated during
    a run on [seq]. *)
Inductive reachable seq : state -> Prop :=
  | reach_init : reachable seq (State 0 0 [])
  | reach_step st st' :
      reachable seq st -> cursor st < len seq -> loop_body seq st = Ok st' ->
      reachable seq st'.

(** The three ways through one iteration. *)
Definition paths seq (st st' : state) : Prop :=
  let i := cursor st in
  let p := pal_len st in
  let bl := best_lengths st in
  (can_extend seq i p = Ok true /\ st' = State (i + 1) (p + 2) bl) \/
  (can_extend seq i p = Ok false /\
   exists d bl', scan p (bl ++ [p]) = Ok (Break d bl') /\
     0 <= d < p /\ st' = State i d bl') \/
  (can_extend seq i p = Ok false /\
   exists bl', scan p (bl ++ [p]) = Ok (Exhausted bl') /\
     st' = State (i + 1) 1 bl').

(** No palindrome recorded in [bl] reaches beyond the profile position [e]. *)
Definition edge_bounded (e : Z) bl : Prop :=
  forall (k : nat) (L : Z), bl !! k = Some L -> Z.of_nat k + L <= e.

(** The list a scan leaves behind. *)
Definition scanned_list (r : for_exit) : list Z :=
  match r with
  | Break _ bl' => bl'
  | Exhausted bl' => bl'
  end.

(** *** Python primitives *)

Lemma len_app {T : Type} (l1 l2 : list T) : len (l1 ++ l2) = len l1 + len l2.
Proof. unfold len. rewrite length_app. lia. Qed.

Lemma len_snoc {T : Type} (l : list T) (x : T) : len (l ++ [x]) = len l + 1.
Proof. rewrite len_app. reflexivity. Qed.

Lemma len_cons {T : Type} (x : T) (l : list T) : len (x :: l) = len l + 1.
Proof. unfold len. cbn [length]. lia. Qed.

Lemma index_lookup {T : Type} (l : list T) (j : Z) (x : T) :
  0 <= j -> l !! Z.to_nat j = Some x -> index l j = Ok x.
Proof.
  intros Hj Hx. unfold index.
  destruct (j <? 0) eqn:E; [lia|].
  rewrite E, Hx. reflexivity.
Qed.

Lemma index_ok {T : Type} (l : list T) (j : Z) :
  0 <= j < len l -> exists x, l !! Z.to_nat j = Some x /\ index l j = Ok x.
Proof.
  intros Hj. unfold len in Hj.
  destruct (lookup_lt_is_Some_2 l (Z.to_nat j)) as [x Hx]; [lia|].
  exists x. split; [exact Hx|]. apply index_lookup; [lia|exact Hx].
Qed.

Lemma range_down_nil (j e : Z) : j <= e -> range_down j e = [].
Proof.
  intros Hle. unfold range_down.
  replace (Z.to_nat (j - e)) with 0%nat by lia. reflexivity.
Qed.

Lemma range_down_cons (j e : Z) :
  e < j -> range_down j e = j :: range_down (j - 1) e.
Proof.
  intros Hlt. unfold range_down.
  replace (Z.to_nat (j - e)) with (S (Z.to_nat (j - 1 - e))) by lia.
  cbn [seq fmap list_fmap]. f_equal; [lia|].
  rewrite <- fmap_S_seq, <- list_fmap_compose.
  apply list_fmap_ext. intros _ k _. cbn. lia.
Qed.

Lemma range_snoc (m : Z) : 0 <= m -> range (m + 1) = range m ++ [m].
Proof.
  intros Hm. unfold range.
  replace (Z.to_nat (m + 1)) with (Z.to_nat m + 1)%nat by lia.
  rewrite seq_app, fmap_app. cbn. f_equal. f_equal. lia.
Qed.

Lemma eqb_elt seq a b (x y : A) :
  elt seq a = Some x -> elt seq b = Some y ->
  eqb x y = true <-> elt seq a = elt seq b.
Proof.
  intros -> ->. unfold eqb. rewrite bool_decide_eq_true.
  split; [intros ->; reflexivity | intros [= ->]; reflexivity].
Qed.

(** *** Palindromes *)

Lemma pal_empty seq a : 0 <= a <= len seq -> pal seq a a.
Proof. intros Ha. repeat split; try lia. Qed.

Lemma pal_single seq a : 0 <= a < len seq -> pal seq a (a + 1).
Proof.
  intros Ha. repeat split; try lia.
  intros t Ht. f_equal. lia.
Qed.

Lemma pal_shrink seq a b a' b' :
  pal seq a b -> a <= a' -> a' <= b' -> a' + b' = a + b -> pal seq a' b'.
Proof.
  intros (H0 & H1 & H2 & H3) Ha Hb Hc. repeat split; try lia.
  intros t Ht. rewrite Hc. apply H3. lia.
Qed.

Lemma pal_grow seq a b :
  pal seq a b -> extends seq a b -> pal seq (a - 1) (b + 1).
Proof.
  intros (H0 & H1 & H2 & H3) (E0 & E1 & E2). repeat split; try lia.
  intros t Ht.
  destruct (decide (t = a - 1)) as [->|Hn1].
  { replace (a - 1 + (b + 1) - 1 - (a - 1)) with b by lia. exact E2. }
  destruct (decide (t = b)) as [->|Hn2].
  { replace (a - 1 + (b + 1) - 1 - b) with (a - 1) by lia. symmetry. exact E2. }
  replace (a - 1 + (b + 1) - 1 - t) with (a + b - 1 - t) by lia.
  apply H3. lia.
Qed.

(** A palindrome is no longer than the maximal one with its centre. *)
Lemma maximal_longest seq a b a' b' :
  maximal seq a b -> pal seq a' b' -> a' + b' = a + b -> a <= a'.
Proof.
  intros [Hp Hx] (H0 & H1 & H2 & H3) Hc.
  destruct (decide (a <= a')) as [|Hlt]; [assumption|].
  exfalso. apply Hx. destruct Hp as (P0 & P1 & P2 & _).
  repeat split; try lia.
  rewrite (H3 (a - 1)) by lia. f_equal. lia.
Qed.

Lemma maximal_unique seq a b a' b' :
  maximal seq a b -> maximal seq a' b' -> a' + b' = a + b -> a = a' /\ b = b'.
Proof.
  intros M M' Hc.
  pose proof (maximal_longest _ _ _ _ _ M (proj1 M') Hc).
  pose proof (maximal_longest _ _ _ _ _ M' (proj1 M) (eq_sym Hc)).
  lia.
Qed.

Lemma longest_at_unique seq k L L' :
  longest_at seq k L -> longest_at seq k L' -> L = L'.
Proof.
  intros (a & b & Hk & HL & M) (a' & b' & Hk' & HL' & M').
  destruct (maximal_unique _ _ _ _ _ M M') as [-> ->]; lia.
Qed.

(** Two complete profiles of the same sequence coincide. *)
Lemma correct_unique seq bl bl' :
  correct seq bl -> correct seq bl' -> length bl = length bl' -> bl = bl'.
Proof.
  intros C C' Hlen. apply list_eq. intros k.
  destruct (bl !! k) as [L|] eqn:E, (bl' !! k) as [L'|] eqn:E'.
  - f_equal. eapply longest_at_unique; eauto.
  - apply lookup_lt_Some in E. apply lookup_ge_None in E'. lia.
  - apply lookup_lt_Some in E'. apply lookup_ge_None in E. lia.
  - reflexivity.
Qed.

Lemma correct_nil seq : correct seq [].
Proof. intros k L Hk. rewrite lookup_nil in Hk. discriminate. Qed.

Lemma correct_snoc seq bl L :
  correct seq bl -> longest_at seq (len bl) L -> correct seq (bl ++ [L]).
Proof.
  intros C HL k L' Hk.
  apply lookup_app_Some in Hk as [Hk|[Hge Hk]]; [apply C, Hk|].
  apply list_lookup_singleton_Some in Hk as [Hk ->].
  replace (Z.of_nat k) with (len bl) by (unfold len; lia). exact HL.
Qed.

(** *** The oracle computes the maximal palindrome of every centre *)

Lemma can_grow_spec seq a b :
  pal seq a b ->
  exists c : bool, can_grow seq a b = Ok c /\ (c = true <-> extends seq a b).
Proof.
  intros (H0 & H1 & H2 & _). unfold can_grow, extends.
  destruct (a >? 0) eqn:Ea; [|exists false; split; [reflexivity|]; split; [discriminate|lia]].
  destruct (b <? len seq) eqn:Eb; [|exists false; split; [reflexivity|]; split; [discriminate|lia]].
  destruct (index_ok seq (a - 1)) as (x & Hx & ->); [lia|].
  destruct (index_ok seq b) as (y & Hy & ->); [lia|].
  exists (eqb x y). split; [reflexivity|].
  rewrite (eqb_elt seq (a - 1) b x y Hx Hy). intuition lia.
Qed.

Lemma expand_spec seq (fuel : nat) : forall a b,
  pal seq a b -> a <= Z.of_nat fuel ->
  exists a' b', expand fuel seq a b = Ok (a', b') /\
    a' + b' = a + b /\ maximal seq a' b'.
Proof.
  induction fuel as [|fuel IH]; intros a b Hp Hf.
  - destruct (can_grow_spec seq a b Hp) as (c & Hc & Hext).
    cbn. rewrite Hc. cbn. destruct c.
    + destruct (proj1 Hext eq_refl) as (? & _). lia.
    + exists a, b. split; [reflexivity|]. split; [reflexivity|].
      split; [exact Hp|]. intros E. apply Hext in E. discriminate.
  - destruct (can_grow_spec seq a b Hp) as (c & Hc & Hext).
    cbn. rewrite Hc. cbn. destruct c.
    + destruct (IH (a - 1) (b + 1)) as (a' & b' & He & Hs & Hm).
      { apply pal_grow; [assumption|]. apply Hext. reflexivity. }
      { lia. }
      exists a', b'. split; [exact He|]. split; [lia|exact Hm].
    + exists a, b. split; [reflexivity|]. split; [reflexivity|].
      split; [exact Hp|]. intros E. apply Hext in E. discriminate.
Qed.

Lemma naive_loop_app seq (ks1 ks2 : list Z) : forall bl,
  naive_loop seq (ks1 ++ ks2) bl =
  (bl' ← naive_loop seq ks1 bl; naive_loop seq ks2 bl').
Proof.
  induction ks1 as [|i ks1 IH]; intros bl; [reflexivity|].
  cbn. destruct (expand _ _ _ _) as [[a' b']| |]; cbn; [apply IH|reflexivity..].
Qed.

Lemma centre_pal seq k :
  0 <= k <= 2 * len seq -> pal seq (k `div` 2) (k `div` 2 + k `mod` 2).
Proof.
  intros Hk.
  assert (k `mod` 2 = 0 \/ k `mod` 2 = 1) as [E|E]
    by (Z.div_mod_to_equations; lia); rewrite E.
  - rewrite Z.add_0_r. apply pal_empty. Z.div_mod_to_equations; lia.
  - apply pal_single. Z.div_mod_to_equations; lia.
Qed.

Lemma naive_loop_range seq (m : nat) :
  Z.of_nat m <= 2 * len seq + 1 ->
  exists bl, naive_loop seq (range (Z.of_nat m)) [] = Ok bl /\
    length bl = m /\ correct seq bl.
Proof.
  induction m as [|m IH]; intros Hm.
  - exists []. repeat split. apply correct_nil.
  - destruct IH as (bl & Hrun & Hlen & Hc); [lia|].
    replace (Z.of_nat (S m)) with (Z.of_nat m + 1) by lia.
    rewrite range_snoc by lia. rewrite naive_loop_app, Hrun. cbn.
    destruct (expand_spec seq (length seq) _ _ (centre_pal seq (Z.of_nat m) ltac:(lia)))
      as (a' & b' & -> & Hs & Hmax).
    { unfold len in Hm. Z.div_mod_to_equations; lia. }
    cbn. exists (bl ++ [b' - a']). split; [reflexivity|]. split.
    + rewrite length_app. cbn. lia.
    + apply correct_snoc; [assumption|].
      exists a', b'. split; [|split; [reflexivity|exact Hmax]].
      unfold len. rewrite Hlen, Hs. Z.div_mod_to_equations; lia.
Qed.

(** The oracle succeeds with the full profile. *)
Lemma naive_spec seq :
  exists bl, naive_longest_palindromes seq = Ok bl /\
    len bl = 2 * len seq + 1 /\ correct seq bl.
Proof.
  unfold naive_longest_palindromes.
  destruct (naive_loop_range seq (Z.to_nat (2 * len seq + 1))) as (bl & Hrun & Hlen & Hc).
  { unfold len. lia. }
  exists bl. rewrite Z2Nat.id in Hrun by (unfold len; lia).
  repeat split; try assumption. unfold len in *. lia.
Qed.

(** *** Mirroring inside a palindrome *)

Lemma pal_elt seq a b t :
  pal seq a b -> a <= t < b -> elt seq t = elt seq (a + b - 1 - t).
Proof. intros (_ & _ & _ & H) Ht. apply H, Ht. Qed.

(** The mirror image of a palindrome that lies inside a palindrome. *)
Lemma pal_mirror seq a b x y :
  pal seq a b -> pal seq x y -> a <= x -> y <= b ->
  pal seq (a + b - y) (a + b - x).
Proof.
  intros Hab Hxy Hax Hyb.
  pose proof Hab as (A0 & A1 & A2 & _). pose proof Hxy as (X0 & X1 & X2 & _).
  repeat split; try lia.
  intros t Ht.
  rewrite (pal_elt seq a b t Hab) by lia.
  rewrite (pal_elt seq x y (a + b - 1 - t) Hxy) by lia.
  rewrite (pal_elt seq a b (x + y - 1 - (a + b - 1 - t)) Hab) by lia.
  f_equal. lia.
Qed.

(** A maximal palindrome strictly inside a palindrome has a maximal
    mirror image. *)
Lemma mirror_inner seq a b x y :
  pal seq a b -> maximal seq x y -> a < x -> y < b ->
  maximal seq (a + b - y) (a + b - x).
Proof.
  intros Hab [Hxy Hne] Hax Hyb. split.
  - apply pal_mirror; try assumption; lia.
  - intros (E0 & E1 & E2). apply Hne.
    pose proof Hab as (A0 & A1 & A2 & _). pose proof Hxy as (X0 & X1 & X2 & _).
    repeat split; try lia.
    rewrite (pal_elt seq a b (x - 1) Hab) by lia.
    rewrite (pal_elt seq a b y Hab) by lia.
    replace (a + b - 1 - (x - 1)) with (a + b - x) by lia.
    replace (a + b - 1 - y) with (a + b - y - 1) by lia.
    symmetry. exact E2.
Qed.

(** A palindrome that reaches the left edge of a palindrome mirrors into
    one that reaches its right edge. *)
Lemma mirror_edge seq a b x y :
  pal seq a b -> pal seq x y -> x <= a -> 2 * a <= x + y -> x + y <= a + b ->
  pal seq (b - (x + y - 2 * a)) b.
Proof.
  intros Hab Hxy Hxa Hd Hc.
  assert (pal seq a (x + y - a)) as Hs by (apply (pal_shrink seq x y); [assumption|lia..]).
  pose proof (pal_mirror seq a b a (x + y - a) Hab Hs ltac:(lia) ltac:(lia)) as Hm.
  replace (a + b - (x + y - a)) with (b - (x + y - 2 * a)) in Hm by lia.
  replace (a + b - a) with b in Hm by lia. exact Hm.
Qed.

(** When the palindrome on the left sticks out of a maximal palindrome, the
    mirrored one cannot grow past the right edge. *)
Lemma mirror_outer seq a b x y :
  maximal seq a b -> pal seq x y -> x < a -> 2 * a <= x + y -> x + y < a + b ->
  ~ extends seq (b - (x + y - 2 * a)) b.
Proof.
  intros [Hab Hne] Hxy Hxa Hd Hc (E0 & E1 & E2). apply Hne.
  pose proof Hab as (A0 & A1 & A2 & _). pose proof Hxy as (X0 & X1 & X2 & _).
  repeat split; try lia.
  rewrite (pal_elt seq x y (a - 1) Hxy) by lia.
  rewrite (pal_elt seq a b (x + y - 1 - (a - 1)) Hab) by lia.
  rewrite <- E2. f_equal. lia.
Qed.

(** The entry copied to the right of the centre [a + b] from the entry [x]
    at [j] on its left. *)
Lemma mirror_entry seq a b j (x : Z) :
  maximal seq a b -> 2 * a <= j < a + b -> longest_at seq j x ->
  x <> j - 2 * a \/ b = len seq ->
  longest_at seq (2 * (a + b) - j) (Z.min (j - 2 * a) x).
Proof.
  intros Hmax Hj (x0 & y0 & Hc & HL & Hm) Hcase.
  pose proof Hmax as [Hab Hne]. pose proof Hm as [Hxy Hne'].
  pose proof Hab as (A0 & A1 & A2 & _). pose proof Hxy as (X0 & X1 & X2 & _).
  destruct (decide (a < x0)) as [Hin|Hout].
  - exists (a + b - y0), (a + b - x0).
    split; [lia|]. split; [lia|]. apply mirror_inner; try assumption; lia.
  - exists (b - (x0 + y0 - 2 * a)), b.
    split; [lia|]. split; [lia|]. split.
    + apply mirror_edge; try assumption; lia.
    + destruct (decide (x0 = a)) as [->|Hlt].
      * destruct Hcase as [Hx|Hb]; [lia|]. intros (_ & E1 & _). lia.
      * apply mirror_outer; try assumption; lia.
Qed.

Lemma mirror_break seq a b j :
  pal seq a b -> 2 * a <= j < a + b -> longest_at seq j (j - 2 * a) ->
  pal seq (b - (j - 2 * a)) b.
Proof.
  intros Hab Hj (x0 & y0 & Hc & HL & [Hxy _]).
  replace (j - 2 * a) with (x0 + y0 - 2 * a) by lia.
  apply mirror_edge; try assumption; lia.
Qed.

Lemma correct_index seq bl j :
  correct seq bl -> 0 <= j < len bl ->
  exists x, index bl j = Ok x /\ longest_at seq j x.
Proof.
  intros Hc Hj. destruct (index_ok bl j Hj) as (x & Hx & Hi).
  exists x. split; [exact Hi|].
  apply Hc in Hx. rewrite Z2Nat.id in Hx by lia. exact Hx.
Qed.

(** *** The backward scans *)

Lemma inner_loop_spec seq a b (cnt : nat) : forall j bl,
  maximal seq a b -> Z.of_nat cnt = j - (2 * a - 1) -> j < a + b ->
  len bl = 2 * (a + b) - j -> correct seq bl ->
  exists r, inner_loop (2 * a - 1) (range_down j (2 * a - 1)) bl = Ok r /\
    scanned seq a b r.
Proof.
  induction cnt as [|cnt IH]; intros j bl Hmax Hcnt Hj Hlen Hc;
    pose proof Hmax as [(A0 & A1 & A2 & _) _].
  - rewrite range_down_nil by lia. exists (Exhausted bl).
    split; [reflexivity|]. split; [lia|assumption].
  - rewrite range_down_cons by lia. cbn [inner_loop].
    destruct (correct_index seq bl j Hc) as (x & -> & Hx); [lia|]. cbn.
    replace (j - (2 * a - 1) - 1) with (j - 2 * a) by lia.
    destruct (x =? j - 2 * a) eqn:E.
    + apply Z.eqb_eq in E. subst x. exists (Break (j - 2 * a) bl).
      split; [reflexivity|]. split; [lia|]. split; [|split; [lia|assumption]].
      apply mirror_break; [apply Hmax|lia|assumption].
    + apply Z.eqb_neq in E.
      apply IH; try assumption; try lia.
      * rewrite len_snoc. lia.
      * apply correct_snoc; [assumption|]. rewrite Hlen.
        apply mirror_entry; try assumption; [lia|left; assumption].
Qed.

Lemma final_loop_spec seq a (cnt : nat) : forall j bl,
  maximal seq a (len seq) -> Z.of_nat cnt = j - (2 * a - 1) -> j < a + len seq ->
  len bl = 2 * (a + len seq) - j -> correct seq bl ->
  exists bl', final_loop (2 * a - 1) (range_down j (2 * a - 1)) bl = Ok bl' /\
    len bl' = 2 * len seq + 1 /\ correct seq bl'.
Proof.
  induction cnt as [|cnt IH]; intros j bl Hmax Hcnt Hj Hlen Hc;
    pose proof Hmax as [(A0 & A1 & A2 & _) _].
  - rewrite range_down_nil by lia. exists bl.
    split; [reflexivity|]. split; [lia|assumption].
  - rewrite range_down_cons by lia. cbn [final_loop].
    destruct (correct_index seq bl j Hc) as (x & -> & Hx); [lia|]. cbn.
    replace (j - (2 * a - 1) - 1) with (j - 2 * a) by lia.
    apply IH; try assumption; try lia.
    + rewrite len_snoc. lia.
    + apply correct_snoc; [assumption|]. rewrite Hlen.
      apply mirror_entry; try assumption; [lia|right; reflexivity].
Qed.

(** *** The main loop *)

Lemma invariant_init seq : invariant seq (State 0 0 []).
Proof.
  split; [|split; [reflexivity|apply correct_nil]].
  apply pal_empty. unfold len. cbn. lia.
Qed.

Lemma can_extend_spec seq i p :
  pal seq (i - p) i -> i < len seq ->
  exists c : bool, can_extend seq i p = Ok c /\ (c = true <-> extends seq (i - p) i).
Proof.
  intros (H0 & H1 & H2 & _) Hi. unfold can_extend, extends.
  destruct (i >? p) eqn:Ea; [|exists false; split; [reflexivity|]; split; [discriminate|lia]].
  destruct (index_ok seq (i - p - 1)) as (x & Hx & ->); [lia|].
  destruct (index_ok seq i) as (y & Hy & ->); [lia|].
  exists (eqb x y). split; [reflexivity|].
  rewrite (eqb_elt seq (i - p - 1) i x y Hx Hy). intuition lia.
Qed.

Lemma emit_spec seq i p bl :
  maximal seq (i - p) i -> len bl = 2 * i - p -> correct seq bl ->
  exists r, scan p (bl ++ [p]) = Ok r /\ scanned seq (i - p) i r.
Proof.
  intros Hmax Hlen Hc.
  pose proof Hmax as [(H0 & H1 & H2 & _) _].
  unfold scan. cbv zeta. rewrite len_snoc.
  replace (len bl + 1 - 2 - p) with (2 * (i - p) - 1) by lia.
  apply (inner_loop_spec seq (i - p) i (Z.to_nat p)); try assumption; try lia.
  - rewrite len_snoc. lia.
  - apply correct_snoc; [assumption|].
    exists (i - p), i. split; [lia|]. split; [lia|assumption].
Qed.

Lemma loop_body_spec seq st :
  invariant seq st -> cursor st < len seq ->
  exists st', loop_body seq st = Ok st' /\ invariant seq st' /\
    potential seq st' < potential seq st.
Proof.
  destruct st as [i p bl]. unfold invariant, potential, loop_body.
  cbn [cursor pal_len best_lengths]. intros (Hp & Hlen & Hc) Hi.
  destruct (can_extend_spec seq i p Hp Hi) as (c & -> & Hext). cbn [mbind result_bind].
  pose proof Hp as (H0 & H1 & H2 & _).
  destruct c.
  - eexists. split; [reflexivity|]. cbn [cursor pal_len best_lengths]. split; [|lia].
    split; [|split; [lia|assumption]].
    replace (i + 1 - (p + 2)) with (i - p - 1) by lia.
    apply pal_grow; [assumption|]. apply Hext. reflexivity.
  - assert (maximal seq (i - p) i) as Hmax.
    { split; [assumption|]. intros E. apply Hext in E. discriminate. }
    unfold emit.
    destruct (emit_spec seq i p bl Hmax Hlen Hc) as (r & -> & Hr).
    cbn [mbind result_bind].
    destruct r as [d bl'|bl']; cbn [scanned] in Hr.
    + destruct Hr as (Hd & Hpal & Hlen' & Hc').
      eexists. split; [reflexivity|]. cbn [cursor pal_len best_lengths].
      split; [|lia]. split; [assumption|]. split; assumption.
    + destruct Hr as (Hlen' & Hc').
      eexists. split; [reflexivity|]. cbn [cursor pal_len best_lengths].
      split; [|lia].
      split; [|split; [lia|assumption]].
      replace (i + 1 - 1) with i by lia. apply pal_single. lia.
Qed.

Lemma main_loop_spec seq (fuel : nat) : forall st,
  invariant seq st -> potential seq st < Z.of_nat fuel ->
  exists st', main_loop fuel seq st = Ok st' /\ invariant seq st' /\
    cursor st' = len seq.
Proof.
  induction fuel as [|fuel IH]; intros st Hinv Hpot.
  - pose proof Hinv as ((H0 & H1 & H2 & _) & _). unfold potential in Hpot.
    cbn. destruct (cursor st <? len seq) eqn:E; [lia|].
    exists st. split; [reflexivity|]. split; [assumption|lia].
  - pose proof Hinv as ((H0 & H1 & H2 & _) & _).
    cbn. destruct (cursor st <? len seq) eqn:E.
    + destruct (loop_body_spec seq st Hinv) as (st1 & -> & Hinv1 & Hdec); [lia|].
      cbn. apply IH; [assumption|lia].
    + exists st. split; [reflexivity|]. split; [assumption|lia].
Qed.

Lemma main_loop_more_fuel seq (fuel : nat) : forall st st' (fuel' : nat),
  main_loop fuel seq st = Ok st' -> (fuel <= fuel')%nat ->
  main_loop fuel' seq st = Ok st'.
Proof.
  induction fuel as [|fuel IH]; intros st st' fuel' Hrun Hle.
  - cbn in Hrun. destruct (cursor st <? len seq) eqn:E; [discriminate|].
    destruct fuel'; cbn; rewrite E; exact Hrun.
  - destruct fuel' as [|fuel']; [lia|]. cbn in *.
    destruct (cursor st <? len seq); [|exact Hrun].
    destruct (loop_body seq st) as [st1| |]; cbn in *; try discriminate.
    apply IH; [exact Hrun|lia].
Qed.

Lemma finalize_spec seq st :
  invariant seq st -> cursor st = len seq ->
  exists bl, finalize (len seq) st = Ok bl /\
    len bl = 2 * len seq + 1 /\ correct seq bl.
Proof.
  destruct st as [i p bl]. unfold invariant, finalize.
  cbn [cursor pal_len best_lengths]. intros (Hp & Hlen & Hc) Hi. subst i.
  pose proof Hp as (H0 & H1 & H2 & _).
  assert (maximal seq (len seq - p) (len seq)) as Hmax.
  { split; [assumption|]. intros (_ & E & _). lia. }
  cbv zeta. rewrite len_snoc.
  replace (len bl + 1 - 2 - (2 * len seq + 1 - (len bl + 1)))
    with (2 * (len seq - p) - 1) by lia.
  apply (final_loop_spec seq (len seq - p) (Z.to_nat p)); try assumption; try lia.
  - rewrite len_snoc. lia.
  - apply correct_snoc; [assumption|].
    exists (len seq - p), (len seq). split; [lia|]. split; [lia|assumption].
Qed.

(** With enough fuel the engine succeeds with the full profile. *)
Lemma fast_with_fuel_spec seq (fuel : nat) :
  (3 * length seq + 1 <= fuel)%nat ->
  exists bl, fast_with_fuel fuel seq = Ok bl /\
    len bl = 2 * len seq + 1 /\ correct seq bl.
Proof.
  intros Hf. unfold fast_with_fuel.
  destruct (main_loop_spec seq fuel (State 0 0 []) (invariant_init seq))
    as (st & -> & Hinv & Hi).
  { unfold potential, len. cbn. lia. }
  cbn. apply finalize_spec; assumption.
Qed.

Lemma fast_spec seq :
  exists bl, fast_longest_palindromes seq = Ok bl /\
    len bl = 2 * len seq + 1 /\ correct seq bl.
Proof. apply fast_with_fuel_spec. lia. Qed.

(** *** Slices and their reversal *)

Lemma slice_length seq a b :
  0 <= a -> a <= b -> b <= len seq -> length (slice seq a b) = Z.to_nat (b - a).
Proof.
  intros H0 H1 H2. unfold slice, len in *.
  rewrite length_take, length_drop. lia.
Qed.

Lemma slice_lookup seq a b (k : nat) :
  0 <= a -> Z.of_nat k < b - a -> slice seq a b !! k = elt seq (a + Z.of_nat k).
Proof.
  intros H0 Hk. unfold slice, elt.
  rewrite lookup_take, lookup_drop. rewrite decide_True by lia.
  f_equal. lia.
Qed.

(** The pointwise palindromes are the slices equal to their own reverse. *)
Lemma pal_slice seq a b :
  0 <= a -> a <= b -> b <= len seq ->
  pal seq a b <-> slice seq a b = reverse (slice seq a b).
Proof.
  intros H0 H1 H2. pose proof (slice_length seq a b H0 H1 H2) as Hlen. split.
  - intros Hp. apply list_eq. intros k.
    destruct (decide (Z.of_nat k < b - a)) as [Hk|Hk].
    + rewrite reverse_lookup by lia. rewrite Hlen.
      rewrite !slice_lookup by lia.
      rewrite (pal_elt seq a b _ Hp) by lia. f_equal. lia.
    + rewrite !(proj2 (lookup_ge_None _ _)); [reflexivity|..];
        rewrite ?length_reverse, Hlen; lia.
  - intros Heq. repeat split; try lia. intros t Ht.
    pose proof (f_equal (fun l => l !! Z.to_nat (t - a)) Heq) as Hk. cbn in Hk.
    rewrite reverse_lookup in Hk by lia. rewrite Hlen in Hk.
    rewrite !slice_lookup in Hk by lia.
    etransitivity; [|etransitivity; [exact Hk|]]; f_equal; lia.
Qed.

Lemma extends_slice seq a b :
  pal seq a b -> 0 < a -> b < len seq ->
  extends seq a b <->
  slice seq (a - 1) (b + 1) = reverse (slice seq (a - 1) (b + 1)).
Proof.
  intros Hp Ha Hb. pose proof Hp as (H0 & H1 & H2 & _).
  rewrite <- pal_slice by lia. split.
  - intros He. apply pal_grow; assumption.
  - intros Hg. repeat split; try lia.
    rewrite (pal_elt seq (a - 1) (b + 1) (a - 1) Hg) by lia. f_equal. lia.
Qed.

(** *** The two implementations agree *)

Lemma fast_naive_agree seq :
  exists profile, fast_longest_palindromes seq = Ok profile /\
    naive_longest_palindromes seq = Ok profile /\
    len profile = 2 * len seq + 1 /\ correct seq profile.
Proof.
  destruct (fast_spec seq) as (bl & Hf & Hlen & Hc).
  destruct (naive_spec seq) as (bl' & Hn & Hlen' & Hc').
  assert (bl = bl') as <-.
  { apply (correct_unique seq); try assumption. unfold len in *. lia. }
  exists bl. repeat split; assumption.
Qed.

Lemma longest_at_bounds seq k (L : Z) :
  longest_at seq k L -> 0 <= L /\ L <= k /\ k + L <= 2 * len seq.
Proof. intros (a & b & Hk & HL & (H0 & H1 & H2 & _) & _). lia. Qed.

Lemma longest_at_parity seq k (L : Z) :
  longest_at seq k L -> L `mod` 2 = k `mod` 2.
Proof.
  intros (a & b & Hk & HL & _). subst k L.
  replace (a + b) with (b - a + a * 2) by lia.
  symmetry. apply Z_mod_plus_full.
Qed.

(** C1. For every finite sequence, the linear engine and the quadratic
    oracle return exactly the same list (and both do return one). *)
Theorem fast_equals_naive seq :
  fast_longest_palindromes seq = naive_longest_palindromes seq /\
  exists profile, naive_longest_palindromes seq = Ok profile.
Proof.
  destruct (fast_naive_agree seq) as (bl & Hf & Hn & _).
  split; [congruence|]. exists bl. exact Hn.
Qed.

(** C3. On every sequence of length [n >= 0] the linear engine succeeds and
    returns a list of exactly [2n + 1] non-negative integers; on the empty
    sequence that list is [[0]]. *)
Theorem fast_total seq :
  (exists profile, fast_longest_palindromes seq = Ok profile /\
     len profile = 2 * len seq + 1 /\ Forall (fun L => 0 <= L) profile) /\
  fast_longest_palindromes (@nil A) = Ok [0].
Proof.
  split; [|reflexivity].
  destruct (fast_spec seq) as (bl & Hf & Hlen & Hc).
  exists bl. split; [exact Hf|]. split; [exact Hlen|].
  apply Forall_lookup_2. intros k L Hk.
  apply Hc, longest_at_bounds in Hk. lia.
Qed.

(** C6. The first and the last entry of the profile, [profile[0]] and
    [profile[2n]], are 0, for the engine and for the oracle alike. *)
Theorem boundary_entries seq :
  exists profile, fast_longest_palindromes seq = Ok profile /\
    naive_longest_palindromes seq = Ok profile /\
    index profile 0 = Ok 0 /\ index profile (2 * len seq) = Ok 0.
Proof.
  destruct (fast_naive_agree seq) as (bl & Hf & Hn & Hlen & Hc).
  exists bl. split; [exact Hf|]. split; [exact Hn|]. split.
  - destruct (correct_index seq bl 0 Hc) as (L & -> & HL); [unfold len in *; lia|].
    apply longest_at_bounds in HL. f_equal. lia.
  - destruct (correct_index seq bl (2 * len seq) Hc) as (L & -> & HL);
      [unfold len in *; lia|].
    apply longest_at_bounds in HL. f_equal. lia.
Qed.

(** C7. Every entry of the profile has the parity of its index:
    [profile[k] % 2 == k % 2], for the engine and for the oracle alike. *)
Theorem parity_entries seq k :
  0 <= k <= 2 * len seq ->
  exists profile L, fast_longest_palindromes seq = Ok profile /\
    naive_longest_palindromes seq = Ok profile /\
    index profile k = Ok L /\ L `mod` 2 = k `mod` 2.
Proof.
  intros Hk. destruct (fast_naive_agree seq) as (bl & Hf & Hn & Hlen & Hc).
  destruct (correct_index seq bl k Hc) as (L & Hi & HL); [lia|].
  exists bl, L. split; [exact Hf|]. split; [exact Hn|]. split; [exact Hi|].
  apply (longest_at_parity seq). exact HL.
Qed.

(** *** The meaning of an entry, in terms of slices *)

Lemma centre_start a b : a <= b -> (a + b) `div` 2 - (b - a) `div` 2 = a.
Proof. intros Hab. Z.div_mod_to_equations. lia. Qed.

(** C2. The entry [profile[k]] of the oracle is the length of the longest
    palindrome with centre [k]: the slice it designates, which starts at
    [k // 2 - profile[k] // 2], lies within the sequence and equals its own
    reverse; growing it by one element on each side, when both are in bounds,
    does not give a palindrome; and no palindrome with the same centre (odd
    ones around an element for odd [k], even ones around a gap for even [k])
    is longer. *)
Theorem naive_entry_longest seq k :
  0 <= k <= 2 * len seq ->
  exists profile L, naive_longest_palindromes seq = Ok profile /\
    index profile k = Ok L /\
    let start := k `div` 2 - L `div` 2 in
    0 <= L /\ 0 <= start /\ start + L <= len seq /\
    slice seq start (start + L) = reverse (slice seq start (start + L)) /\
    (0 < start -> start + L < len seq ->
     slice seq (start - 1) (start + L + 1) <>
     reverse (slice seq (start - 1) (start + L + 1))) /\
    (forall a b, 0 <= a -> a <= b -> b <= len seq -> a + b = k ->
     slice seq a b = reverse (slice seq a b) -> b - a <= L).
Proof.
  intros Hk. destruct (naive_spec seq) as (bl & Hn & Hlen & Hc).
  destruct (correct_index seq bl k Hc) as (L & Hi & a & b & Hab & HL & Hmax); [lia|].
  exists bl, L. split; [exact Hn|]. split; [exact Hi|]. cbv zeta.
  pose proof Hmax as [Hp Hne]. pose proof Hp as (H0 & H1 & H2 & _).
  subst k L. rewrite centre_start by lia.
  replace (a + (b - a)) with b by lia.
  split; [lia|]. split; [lia|]. split; [lia|]. split; [|split].
  - apply pal_slice; assumption.
  - intros Ha Hb Hs. apply Hne. apply extends_slice; assumption.
  - intros a' b' A0 A1 A2 Hc' Hs.
    apply pal_slice in Hs; try assumption.
    pose proof (maximal_longest seq a b a' b' Hmax Hs Hc'). lia.
Qed.

(** *** Sequences of identical elements *)

Lemma fold_max_le (r : list Z) : forall x0 M,
  x0 <= M -> Forall (fun y => y <= M) r -> fold_left Z.max r x0 <= M.
Proof.
  induction r as [|z r IH]; intros x0 M Hx Hr; [exact Hx|].
  apply Forall_cons in Hr as [Hz Hr]. cbn. apply IH; [lia|exact Hr].
Qed.

Lemma fold_max_ge (r : list Z) : forall x0 y,
  y = x0 \/ y ∈ r -> y <= fold_left Z.max r x0.
Proof.
  induction r as [|z r IH]; intros x0 y Hy.
  - destruct Hy as [->|Hy]; [cbn; lia|]. apply elem_of_nil in Hy. destruct Hy.
  - cbn. destruct Hy as [->|Hy].
    + etransitivity; [|apply (IH _ (Z.max x0 z)); left; reflexivity]. lia.
    + apply elem_of_cons in Hy as [->|Hy].
      * etransitivity; [|apply (IH _ (Z.max x0 z)); left; reflexivity]. lia.
      * apply IH. right. exact Hy.
Qed.

Lemma max_of_spec (l : list Z) (M : Z) :
  M ∈ l -> Forall (fun y => y <= M) l -> max_of l = Some M.
Proof.
  intros Hin Hall. destruct l as [|x0 r]; [apply elem_of_nil in Hin; destruct Hin|].
  cbn. f_equal. apply Forall_cons in Hall as [Hx Hr].
  apply Z.le_antisymm; [apply fold_max_le; assumption|].
  apply fold_max_ge. apply elem_of_cons in Hin. exact Hin.
Qed.

Lemma replicate_maximal (x : A) (m : nat) :
  maximal (replicate m x) 0 (Z.of_nat m).
Proof.
  assert (len (replicate m x) = Z.of_nat m) as Hlen
    by (unfold len; rewrite length_replicate; reflexivity).
  split; [|intros (E & _); lia].
  repeat split; try lia. intros t Ht. unfold elt.
  rewrite !lookup_replicate_2 by lia. reflexivity.
Qed.

(** C8. On a sequence of [m] identical elements the largest entry of the
    profile is [m], for every [m >= 0] (so 10,000 repeated elements give
    10000), for the engine and for the oracle alike. *)
Theorem identical_elements_max (x : A) (m : nat) :
  exists profile, fast_longest_palindromes (replicate m x) = Ok profile /\
    naive_longest_palindromes (replicate m x) = Ok profile /\
    max_of profile = Some (Z.of_nat m).
Proof.
  destruct (fast_naive_agree (replicate m x)) as (bl & Hf & Hn & Hlen & Hc).
  assert (len (replicate m x) = Z.of_nat m) as Hm
    by (unfold len; rewrite length_replicate; reflexivity).
  exists bl. split; [exact Hf|]. split; [exact Hn|].
  apply max_of_spec.
  - destruct (index_ok bl (Z.of_nat m)) as (L & HL & _); [lia|].
    apply list_elem_of_lookup. exists (Z.to_nat (Z.of_nat m)).
    rewrite HL. f_equal. apply Hc in HL. rewrite Z2Nat.id in HL by lia.
    apply (longest_at_unique _ _ _ _ HL).
    exists 0, (Z.of_nat m). split; [lia|]. split; [lia|]. apply replicate_maximal.
  - apply Forall_lookup_2. intros k L Hk.
    pose proof (lookup_lt_Some _ _ _ Hk) as Hlt.
    apply Hc, longest_at_bounds in Hk. unfold len in Hlen. lia.
Qed.

(** *** Reversal *)

Lemma len_reverse seq : len (reverse seq) = len seq.
Proof. unfold len. rewrite length_reverse. reflexivity. Qed.

Lemma elt_reverse seq t :
  0 <= t < len seq -> elt (reverse seq) t = elt seq (len seq - 1 - t).
Proof.
  intros Ht. unfold elt, len in *. rewrite reverse_lookup by lia.
  f_equal. lia.
Qed.

Lemma maximal_reverse seq a b :
  maximal seq a b -> maximal (reverse seq) (len seq - b) (len seq - a).
Proof.
  intros [Hp Hne]. pose proof Hp as (H0 & H1 & H2 & _). split.
  - unfold pal. rewrite len_reverse. repeat split; try lia.
    intros t Ht. rewrite !elt_reverse by lia.
    rewrite (pal_elt seq a b _ Hp) by lia. f_equal. lia.
  - intros (E0 & E1 & E2). rewrite len_reverse in E1.
    rewrite !elt_reverse in E2 by lia. apply Hne.
    repeat split; try lia.
    etransitivity; [|etransitivity; [symmetry; exact E2|]]; f_equal; lia.
Qed.

Lemma correct_reverse seq bl :
  correct seq bl -> len bl = 2 * len seq + 1 -> correct (reverse seq) (reverse bl).
Proof.
  intros Hc Hlen k L Hk.
  apply reverse_lookup_Some in Hk as [Hk Hlt].
  apply Hc in Hk as (a & b & Hab & HL & Hmax).
  exists (len seq - b), (len seq - a).
  split; [unfold len in *; lia|]. split; [lia|]. apply maximal_reverse, Hmax.
Qed.

(** C10. Reversing the sequence reverses the profile: the oracle (and with
    it the engine) maps the reverse of [seq] to the reverse of the profile
    of [seq]. *)
Theorem reverse_profile seq :
  exists profile, naive_longest_palindromes seq = Ok profile /\
    naive_longest_palindromes (reverse seq) = Ok (reverse profile) /\
    fast_longest_palindromes seq = Ok profile /\
    fast_longest_palindromes (reverse seq) = Ok (reverse profile).
Proof.
  destruct (fast_naive_agree seq) as (bl & Hf & Hn & Hlen & Hc).
  destruct (fast_naive_agree (reverse seq)) as (bl' & Hf' & Hn' & Hlen' & Hc').
  assert (bl' = reverse bl) as ->.
  { apply (correct_unique (reverse seq)); [assumption|apply correct_reverse; assumption|].
    rewrite length_reverse. rewrite len_reverse in Hlen'. unfold len in *. lia. }
  exists bl. repeat split; assumption.
Qed.

(** *** Runs of the main loop *)

Lemma reachable_invariant seq st : reachable seq st -> invariant seq st.
Proof.
  induction 1 as [|st st' _ IH Hlt Hbody]; [apply invariant_init|].
  destruct (loop_body_spec seq st IH Hlt) as (st1 & Hb & Hinv & _).
  congruence.
Qed.

Lemma loop_body_paths seq st st' :
  invariant seq st -> cursor st < len seq -> loop_body seq st = Ok st' ->
  paths seq st st'.
Proof.
  destruct st as [i p bl]. unfold invariant, paths, loop_body.
  cbn [cursor pal_len best_lengths]. intros (Hp & Hlen & Hc) Hi.
  destruct (can_extend_spec seq i p Hp Hi) as (c & -> & Hext). cbn [mbind result_bind].
  destruct c.
  - intros [= <-]. left. split; reflexivity.
  - assert (maximal seq (i - p) i) as Hmax.
    { split; [assumption|]. intros E. apply Hext in E. discriminate. }
    unfold emit.
    destruct (emit_spec seq i p bl Hmax Hlen Hc) as (r & -> & Hr).
    cbn [mbind result_bind].
    destruct r as [d bl'|bl']; cbn [scanned] in Hr; intros [= <-]; right.
    + left. split; [reflexivity|]. exists d, bl'.
      split; [reflexivity|]. split; [lia|reflexivity].
    + right. split; [reflexivity|]. exists bl'. split; reflexivity.
Qed.

Lemma len_range_down (s e : Z) : len (range_down s e) = Z.max 0 (s - e).
Proof. unfold len, range_down. rewrite length_fmap, length_seq. lia. Qed.

Lemma inner_loop_exhausted_len (e : Z) (js : list Z) : forall bl bl',
  inner_loop e js bl = Ok (Exhausted bl') -> len bl' = len bl + len js.
Proof.
  induction js as [|j js IH]; intros bl bl' Hrun.
  - injection Hrun as <-. unfold len at 3. cbn. lia.
  - cbn [inner_loop] in Hrun.
    destruct (index bl j) as [x| |]; cbn [mbind result_bind] in Hrun;
      try discriminate.
    destruct (x =? j - e - 1); [discriminate|].
    apply IH in Hrun. rewrite len_snoc in Hrun. rewrite len_cons. lia.
Qed.

(** C4, as the code has it. The engine terminates on every finite sequence:
    with [3n + 1] iterations or more to spend, the main loop ends with the
    cursor at [n], the closing loop completes, and the profile has exactly
    [2n + 1] entries.  Every iteration of the main loop lowers [potential]:
    the cursor advances by one on the extension path and on the [else] path,
    and stays where it is on the [break] path only, where [pal_len] becomes
    strictly smaller. *)
Theorem fast_terminates seq :
  (exists st profile,
     (forall fuel : nat, (3 * length seq + 1 <= fuel)%nat ->
        main_loop fuel seq (State 0 0 []) = Ok st) /\
     cursor st = len seq /\
     finalize (len seq) st = Ok profile /\
     len profile = 2 * len seq + 1 /\
     fast_longest_palindromes seq = Ok profile) /\
  (forall st, reachable seq st -> cursor st < len seq ->
     exists st', loop_body seq st = Ok st' /\
       0 <= potential seq st' < potential seq st /\
       paths seq st st').
Proof.
  split.
  - destruct (main_loop_spec seq (3 * length seq + 1) (State 0 0 [])
                (invariant_init seq)) as (st & Hrun & Hinv & Hi).
    { unfold potential, len. cbn. lia. }
    destruct (finalize_spec seq st Hinv Hi) as (bl & Hfin & Hlen & _).
    exists st, bl. split; [|split; [exact Hi|split; [exact Hfin|split; [exact Hlen|]]]].
    + intros fuel Hfuel. apply (main_loop_more_fuel seq _ _ _ _ Hrun Hfuel).
    + unfold fast_longest_palindromes, fast_with_fuel. rewrite Hrun. exact Hfin.
  - intros st Hreach Hlt. pose proof (reachable_invariant seq st Hreach) as Hinv.
    destruct (loop_body_spec seq st Hinv Hlt) as (st' & Hb & Hinv' & Hpot).
    exists st'. split; [exact Hb|]. split.
    + split; [|exact Hpot].
      destruct Hinv' as ((H0 & H1 & H2 & _) & _). unfold potential. lia.
    + apply loop_body_paths; assumption.
Qed.

(** C5. The three invariants of the main loop, in every state in which its
    test is evaluated: (1) [seq[i - pal_len : i]] is a palindrome; (2) the
    number of entries emitted is at least [2 * i - pal_len], in particular
    after an iteration that took the extension path; (3) it is less than
    [2 * i + 1] before the [append] that opens an iteration, and before
    every [append] of the inner loop, whatever prefix [js1] of its range has
    been run. *)
Theorem main_loop_invariants seq st :
  reachable seq st ->
  (0 <= cursor st - pal_len st /\ cursor st <= len seq /\
   slice seq (cursor st - pal_len st) (cursor st) =
   reverse (slice seq (cursor st - pal_len st) (cursor st))) /\
  (len (best_lengths st) >= 2 * cursor st - pal_len st /\
   forall st', cursor st < len seq ->
     can_extend seq (cursor st) (pal_len st) = Ok true ->
     loop_body seq st = Ok st' ->
     len (best_lengths st') >= 2 * cursor st' - pal_len st') /\
  (len (best_lengths st) < 2 * cursor st + 1 /\
   forall js1 j js2 bl',
     let bl := best_lengths st ++ [pal_len st] in
     let start := len bl - 2 in
     let end_ := start - pal_len st in
     range_down start end_ = js1 ++ j :: js2 ->
     inner_loop end_ js1 bl = Ok (Exhausted bl') ->
     len bl' < 2 * cursor st + 1).
Proof.
  intros Hreach. pose proof (reachable_invariant seq st Hreach) as Hinv.
  pose proof Hinv as (Hp & Hlen & Hc). pose proof Hp as (H0 & H1 & H2 & _).
  split; [|split].
  - split; [lia|]. split; [lia|]. apply pal_slice; assumption.
  - split; [lia|]. intros st' Hlt Hext Hbody.
    assert (reachable seq st') as Hreach' by (eapply reach_step; eassumption).
    apply reachable_invariant in Hreach' as (_ & Hlen' & _). lia.
  - split; [lia|]. intros js1 j js2 bl' bl start end_ Hrange Hrun.
    apply inner_loop_exhausted_len in Hrun.
    pose proof (f_equal len Hrange) as Hl.
    rewrite len_range_down, len_app, len_cons in Hl. subst bl start end_.
    rewrite len_snoc in *. unfold len in *. lia.
Qed.

(** ** Further properties of the profile *)

(** *** Which slices are palindromes *)

Lemma correct_entry seq bl k :
  correct seq bl -> len bl = 2 * len seq + 1 -> 0 <= k <= 2 * len seq ->
  exists L a b, index bl k = Ok L /\ a + b = k /\ b - a = L /\ maximal seq a b.
Proof.
  intros Hc Hlen Hk.
  destruct (correct_index seq bl k Hc) as (L & Hi & a & b & Hab & HL & Hmax); [lia|].
  exists L, a, b. repeat split; try assumption; apply Hmax.
Qed.

(** X1. The profile decides every slice: [seq[a:b]] is a palindrome exactly
    when its length is at most the entry of its centre, [profile[a + b]]. *)
Theorem palindrome_test seq a b :
  0 <= a -> a <= b -> b <= len seq ->
  exists profile L, fast_longest_palindromes seq = Ok profile /\
    naive_longest_palindromes seq = Ok profile /\
    index profile (a + b) = Ok L /\
    (slice seq a b = reverse (slice seq a b) <-> b - a <= L).
Proof.
  intros H0 H1 H2. destruct (fast_naive_agree seq) as (bl & Hf & Hn & Hlen & Hc).
  destruct (correct_entry seq bl (a + b) Hc Hlen) as (L & a0 & b0 & Hi & Hab & HL & Hmax);
    [lia|].
  exists bl, L. split; [exact Hf|]. split; [exact Hn|]. split; [exact Hi|].
  rewrite <- pal_slice by assumption. split.
  - intros Hp. pose proof (maximal_longest seq a0 b0 a b Hmax Hp ltac:(lia)). lia.
  - intros Hle. apply (pal_shrink seq a0 b0); [apply Hmax|lia..].
Qed.

(** *** The largest entry *)

Lemma fold_max_in (r : list Z) : forall x0,
  fold_left Z.max r x0 = x0 \/ fold_left Z.max r x0 ∈ r.
Proof.
  induction r as [|z r IH]; intros x0; [left; reflexivity|].
  cbn. destruct (IH (Z.max x0 z)) as [E|E].
  - rewrite E. destruct (Z.max_spec x0 z) as [[_ ->]|[_ ->]].
    + right. apply elem_of_cons. left. reflexivity.
    + left. reflexivity.
  - right. apply elem_of_cons. right. exact E.
Qed.

Lemma max_of_some (l : list Z) :
  l <> [] ->
  exists M, max_of l = Some M /\ M ∈ l /\ Forall (fun y => y <= M) l.
Proof.
  destruct l as [|x0 r]; [congruence|]. intros _.
  exists (fold_left Z.max r x0). split; [reflexivity|]. split.
  - apply elem_of_cons. apply fold_max_in.
  - apply Forall_forall. intros y Hy. apply fold_max_ge.
    apply elem_of_cons in Hy. exact Hy.
Qed.

(** X2. [max(profile)] is the length of the longest palindromic slice of the
    sequence: some slice of that length is a palindrome, and no palindromic
    slice is longer. *)
Theorem max_is_longest_palindrome seq :
  exists profile M, fast_longest_palindromes seq = Ok profile /\
    naive_longest_palindromes seq = Ok profile /\
    max_of profile = Some M /\
    (exists a, 0 <= a /\ a + M <= len seq /\
       slice seq a (a + M) = reverse (slice seq a (a + M))) /\
    (forall a b, 0 <= a -> a <= b -> b <= len seq ->
       slice seq a b = reverse (slice seq a b) -> b - a <= M).
Proof.
  destruct (fast_naive_agree seq) as (bl & Hf & Hn & Hlen & Hc).
  destruct (max_of_some bl) as (M & HM & Hin & Hall).
  { intros ->. unfold len in Hlen. cbn in Hlen. lia. }
  exists bl, M. split; [exact Hf|]. split; [exact Hn|]. split; [exact HM|]. split.
  - apply list_elem_of_lookup in Hin as [k Hk].
    apply Hc in Hk as (a & b & Hab & HL & Hp & _).
    pose proof Hp as (H0 & H1 & H2 & _).
    exists a. split; [lia|]. split; [lia|].
    replace (a + M) with b by lia. apply pal_slice; assumption.
  - intros a b H0 H1 H2 Hs. apply pal_slice in Hs; try assumption.
    destruct (index_ok bl (a + b)) as (L & HL & _); [lia|].
    pose proof (proj1 (Forall_lookup _ _) Hall _ _ HL) as HLM. cbn in HLM.
    apply Hc in HL as (a0 & b0 & Hab & HL & Hmax). rewrite Z2Nat.id in Hab by lia.
    pose proof (maximal_longest seq a0 b0 a b Hmax Hs ltac:(lia)). lia.
Qed.

(** X3. Every entry lies between the parity of its index (an element alone
    is a palindrome) and the distance from its centre to the nearer end of
    the sequence: [k % 2 <= profile[k] <= min(k, 2n - k)]. *)
Theorem entry_bounds seq k :
  0 <= k <= 2 * len seq ->
  exists profile L, fast_longest_palindromes seq = Ok profile /\
    naive_longest_palindromes seq = Ok profile /\
    index profile k = Ok L /\
    k `mod` 2 <= L <= Z.min k (2 * len seq - k).
Proof.
  intros Hk. destruct (fast_naive_agree seq) as (bl & Hf & Hn & Hlen & Hc).
  destruct (correct_index seq bl k Hc) as (L & Hi & HL); [lia|].
  exists bl, L. split; [exact Hf|]. split; [exact Hn|]. split; [exact Hi|].
  pose proof (longest_at_parity seq k L HL) as Hpar.
  apply longest_at_bounds in HL. split; [|lia].
  rewrite <- Hpar. Z.div_mod_to_equations. lia.
Qed.

(** *** Entries on the two sides of a palindrome *)

(** X4. Inside the palindrome of centre [k], of length [L], the entry at
    distance [m] to the right of the centre is at least the smaller of
    [L - m] and the entry at distance [m] to the left; it is that minimum
    unless the palindrome on the left ends exactly at the left edge. *)
Theorem mirror_law seq k m :
  0 <= k <= 2 * len seq -> 1 <= m ->
  exists profile L, fast_longest_palindromes seq = Ok profile /\
    naive_longest_palindromes seq = Ok profile /\
    index profile k = Ok L /\
    (m <= L ->
     exists x y, index profile (k - m) = Ok x /\ index profile (k + m) = Ok y /\
       Z.min (L - m) x <= y /\ (x <> L - m -> y = Z.min (L - m) x)).
Proof.
  intros Hk Hm. destruct (fast_naive_agree seq) as (bl & Hf & Hn & Hlen & Hc).
  destruct (correct_entry seq bl k Hc Hlen Hk) as (L & a & b & Hi & Hab & HL & Hmax).
  exists bl, L. split; [exact Hf|]. split; [exact Hn|]. split; [exact Hi|].
  intros HmL. pose proof Hmax as [Hp _]. pose proof Hp as (H0 & H1 & H2 & _).
  destruct (correct_index seq bl (k - m) Hc) as (x & Hx & Hlx); [lia|].
  destruct (correct_index seq bl (k + m) Hc) as (y & Hy & Hly); [lia|].
  exists x, y. split; [exact Hx|]. split; [exact Hy|].
  replace (L - m) with (k - m - 2 * a) by lia.
  replace (k + m) with (2 * (a + b) - (k - m)) in Hly by lia.
  split.
  - destruct (decide (x = k - m - 2 * a)) as [->|Hne].
    + pose proof (mirror_break seq a b (k - m) Hp ltac:(lia) Hlx) as Hedge.
      destruct Hly as (a' & b' & Hab' & HL' & Hmax').
      pose proof (maximal_longest seq a' b' _ _ Hmax' Hedge ltac:(lia)). lia.
    + pose proof (mirror_entry seq a b (k - m) x Hmax ltac:(lia) Hlx (or_introl Hne)) as Hmin.
      rewrite (longest_at_unique _ _ _ _ Hly Hmin). lia.
  - intros Hne.
    pose proof (mirror_entry seq a b (k - m) x Hmax ltac:(lia) Hlx (or_introl Hne)) as Hmin.
    apply (longest_at_unique _ _ _ _ Hly Hmin).
Qed.

(** *** Two families of sequences *)

Lemma replicate_pal (x : A) (m : nat) a b :
  0 <= a -> a <= b -> b <= Z.of_nat m -> pal (replicate m x) a b.
Proof.
  intros H0 H1 H2. unfold pal, len. rewrite length_replicate.
  repeat split; try lia. intros t Ht. unfold elt.
  rewrite !lookup_replicate_2 by lia. reflexivity.
Qed.

(** X5. On [m] identical elements the profile is the tent
    [profile[k] = min(k, 2m - k)]. *)
Theorem identical_elements_profile (x : A) (m : nat) k :
  0 <= k <= 2 * Z.of_nat m ->
  exists profile, fast_longest_palindromes (replicate m x) = Ok profile /\
    naive_longest_palindromes (replicate m x) = Ok profile /\
    index profile k = Ok (Z.min k (2 * Z.of_nat m - k)).
Proof.
  intros Hk. destruct (fast_naive_agree (replicate m x)) as (bl & Hf & Hn & Hlen & Hc).
  assert (len (replicate m x) = Z.of_nat m) as Hm
    by (unfold len; rewrite length_replicate; reflexivity).
  destruct (correct_index _ bl k Hc) as (L & Hi & HL); [lia|].
  exists bl. split; [exact Hf|]. split; [exact Hn|]. rewrite Hi. f_equal.
  apply (longest_at_unique _ _ _ _ HL).
  exists (Z.max 0 (k - Z.of_nat m)), (Z.min k (Z.of_nat m)).
  split; [lia|]. split; [lia|]. split.
  - apply replicate_pal; lia.
  - intros (E0 & E1 & _). lia.
Qed.

(** X6. The profile is the trivial one, [0, 1, 0, 1, ..., 0], exactly when
    the sequence has no two equal elements next to each other or one
    element apart, that is, no palindrome of length 2 or 3. *)
Theorem trivial_profile seq :
  exists profile, fast_longest_palindromes seq = Ok profile /\
    naive_longest_palindromes seq = Ok profile /\
    ((forall k, 0 <= k <= 2 * len seq -> index profile k = Ok (k `mod` 2)) <->
     (forall (i : nat) (x : A), seq !! i = Some x ->
        seq !! S i <> Some x /\ seq !! S (S i) <> Some x)).
Proof.
  destruct (fast_naive_agree seq) as (bl & Hf & Hn & Hlen & Hc).
  exists bl. split; [exact Hf|]. split; [exact Hn|]. split.
  - intros Hall i x Hi.
    pose proof (lookup_lt_Some _ _ _ Hi) as Hlt.
    assert (forall d, (d = 1 \/ d = 2) -> seq !! (Z.to_nat (Z.of_nat i + d)) <> Some x) as Hd.
    { intros d Hd E. pose proof (lookup_lt_Some _ _ _ E) as Hlt'.
      assert (pal seq (Z.of_nat i) (Z.of_nat i + d + 1)) as Hp.
      { unfold pal, len. repeat split; try lia. intros t Ht. unfold elt.
        destruct (decide (t = Z.of_nat i)) as [->|Hne].
        - replace (Z.to_nat (Z.of_nat i + (Z.of_nat i + d + 1) - 1 - Z.of_nat i))
            with (Z.to_nat (Z.of_nat i + d)) by lia.
          rewrite Nat2Z.id. congruence.
        - destruct (decide (t = Z.of_nat i + d)) as [->|Hne'].
          + replace (Z.to_nat (Z.of_nat i + (Z.of_nat i + d + 1) - 1 - (Z.of_nat i + d)))
              with i by lia. congruence.
          + f_equal. lia. }
      destruct (correct_entry seq bl (2 * Z.of_nat i + d + 1) Hc Hlen)
        as (L & a & b & HiL & Hab & HL & Hmax); [unfold len; lia|].
      rewrite Hall in HiL by (unfold len; lia). injection HiL as HiL.
      pose proof (maximal_longest seq a b _ _ Hmax Hp ltac:(lia)).
      Z.div_mod_to_equations. lia. }
    split.
    + replace (S i) with (Z.to_nat (Z.of_nat i + 1)) by lia. apply Hd. lia.
    + replace (S (S i)) with (Z.to_nat (Z.of_nat i + 2)) by lia. apply Hd. lia.
  - intros Hno k Hk.
    destruct (correct_index seq bl k Hc) as (L & Hi & HL); [lia|].
    rewrite Hi. f_equal. apply (longest_at_unique _ _ _ _ HL).
    exists (k `div` 2), (k `div` 2 + k `mod` 2).
    split; [Z.div_mod_to_equations; lia|]. split; [lia|].
    split; [apply centre_pal; exact Hk|].
    intros (E0 & E1 & E2). unfold elt in E2.
    destruct (lookup_lt_is_Some_2 seq (Z.to_nat (k `div` 2 - 1))) as [x Hx].
    { unfold len in *. Z.div_mod_to_equations. lia. }
    destruct (Hno _ _ Hx) as [N1 N2]. rewrite Hx in E2.
    assert (k `mod` 2 = 0 \/ k `mod` 2 = 1) as [E|E]
      by (Z.div_mod_to_equations; lia); rewrite E in E2.
    + apply N1. rewrite E2. f_equal. lia.
    + apply N2. rewrite E2. f_equal. lia.
Qed.

(** *** A sequence inside a longer one *)

Lemma len_nonneg {T : Type} (l : list T) : 0 <= len l.
Proof. unfold len. lia. Qed.

Lemma elt_app_middle (pre seq post : list A) t :
  0 <= t < len seq -> elt (pre ++ seq ++ post) (len pre + t) = elt seq t.
Proof.
  intros Ht. unfold elt, len in *.
  replace (Z.to_nat (Z.of_nat (length pre) + t))
    with (length pre + Z.to_nat t)%nat by lia.
  rewrite lookup_app_r by lia.
  replace (length pre + Z.to_nat t - length pre)%nat with (Z.to_nat t) by lia.
  apply lookup_app_l. lia.
Qed.

Lemma pal_context (pre seq post : list A) a b :
  pal seq a b -> pal (pre ++ seq ++ post) (len pre + a) (len pre + b).
Proof.
  intros Hp. pose proof Hp as (H0 & H1 & H2 & _).
  pose proof (len_nonneg pre). pose proof (len_nonneg post).
  unfold pal. rewrite !len_app.
  split; [lia|]. split; [lia|]. split; [lia|]. intros t Ht.
  replace t with (len pre + (t - len pre)) at 1 by lia.
  replace (len pre + a + (len pre + b) - 1 - t)
    with (len pre + (a + b - 1 - (t - len pre))) by lia.
  rewrite !elt_app_middle by lia. apply (pal_elt seq a b); [exact Hp|lia].
Qed.

Lemma maximal_context (pre seq post : list A) a b :
  maximal seq a b -> 0 < a -> b < len seq ->
  maximal (pre ++ seq ++ post) (len pre + a) (len pre + b).
Proof.
  intros [Hp Hne] Ha Hb. pose proof Hp as (H0 & H1 & H2 & _).
  pose proof (len_nonneg pre).
  split; [apply pal_context; exact Hp|].
  intros (_ & _ & E). apply Hne. repeat split; try lia.
  replace (len pre + a - 1) with (len pre + (a - 1)) in E by lia.
  rewrite !elt_app_middle in E by lia. exact E.
Qed.

(** X7. Entries are local. When the sequence is put between a prefix and a
    suffix, the entry of each of its centres moves [2 * len(pre)] places to
    the right and does not decrease; it is unchanged when its palindrome
    touches neither end of the sequence. *)
Theorem context_entries (pre seq post : list A) k :
  0 <= k <= 2 * len seq ->
  exists profile profile' L L',
    fast_longest_palindromes seq = Ok profile /\
    fast_longest_palindromes (pre ++ seq ++ post) = Ok profile' /\
    index profile k = Ok L /\
    index profile' (2 * len pre + k) = Ok L' /\
    L <= L' /\
    (0 < k - L -> k + L < 2 * len seq -> L' = L).
Proof.
  intros Hk. destruct (fast_naive_agree seq) as (bl & Hf & _ & Hlen & Hc).
  destruct (fast_naive_agree (pre ++ seq ++ post)) as (bl' & Hf' & _ & Hlen' & Hc').
  destruct (correct_entry seq bl k Hc Hlen Hk) as (L & a & b & Hi & Hab & HL & Hmax).
  rewrite !len_app in Hlen'.
  pose proof (len_nonneg pre). pose proof (len_nonneg post).
  destruct (correct_index _ bl' (2 * len pre + k) Hc') as (L' & Hi' & HL');
    [lia|].
  exists bl, bl', L, L'. split; [exact Hf|]. split; [exact Hf'|].
  split; [exact Hi|]. split; [exact Hi'|].
  pose proof Hmax as [Hp _]. pose proof Hp as (P0 & P1 & P2 & _). split.
  - destruct HL' as (a' & b' & Hab' & HLb & Hmax').
    pose proof (maximal_longest _ a' b' _ _ Hmax' (pal_context pre seq post a b Hp)
                  ltac:(lia)).
    lia.
  - intros Hl Hr. apply (longest_at_unique _ _ _ _ HL').
    exists (len pre + a), (len pre + b). split; [lia|]. split; [lia|].
    apply maximal_context; [exact Hmax|lia..].
Qed.

(** *** The number of iterations of the main loop *)

Lemma main_loop_within seq (fuel : nat) : forall st,
  invariant seq st -> potential seq st <= Z.of_nat fuel ->
  exists st', main_loop fuel seq st = Ok st' /\ invariant seq st' /\
    cursor st' = len seq.
Proof.
  induction fuel as [|fuel IH]; intros st Hinv Hpot;
    pose proof Hinv as ((H0 & H1 & H2 & _) & _); unfold potential in Hpot;
    cbn [main_loop]; destruct (cursor st <? len seq) eqn:E.
  - lia.
  - exists st. split; [reflexivity|]. split; [assumption|lia].
  - destruct (loop_body_spec seq st Hinv) as (st1 & -> & Hinv1 & Hdec); [lia|].
    cbn [mbind result_bind]. apply IH; [assumption|]. unfold potential in *. lia.
  - exists st. split; [reflexivity|]. split; [assumption|lia].
Qed.

Lemma main_loop_starved seq (fuel : nat) : forall st,
  invariant seq st -> Z.of_nat fuel < len seq - cursor st ->
  main_loop fuel seq st = OutOfFuel.
Proof.
  induction fuel as [|fuel IH]; intros st Hinv Hfuel; cbn [main_loop];
    destruct (cursor st <? len seq) eqn:E; try lia; [reflexivity|].
  destruct (loop_body_spec seq st Hinv) as (st1 & Hb & Hinv1 & _); [lia|].
  pose proof (loop_body_paths seq st st1 Hinv ltac:(lia) Hb) as Hpath.
  rewrite Hb. cbn [mbind result_bind]. apply IH; [assumption|].
  destruct Hpath as [(_ & ->)|[(_ & d & bl' & _ & _ & ->)|(_ & bl' & _ & ->)]];
    cbn [cursor]; lia.
Qed.

(** X8. The main loop makes at least [n] and at most [3n] iterations on a
    sequence of length [n]: [3n] iterations are enough for the whole run,
    and fewer than [n] never are. *)
Theorem main_loop_iterations seq :
  fast_with_fuel (3 * length seq) seq = fast_longest_palindromes seq /\
  (exists st, main_loop (3 * length seq) seq (State 0 0 []) = Ok st) /\
  (forall fuel : nat, (fuel < length seq)%nat ->
     main_loop fuel seq (State 0 0 []) = OutOfFuel).
Proof.
  destruct (main_loop_within seq (3 * length seq) (State 0 0 [])
              (invariant_init seq)) as (st & Hrun & _ & _).
  { unfold potential, len. cbn. lia. }
  split; [|split].
  - unfold fast_longest_palindromes, fast_with_fuel. rewrite Hrun.
    rewrite (main_loop_more_fuel seq _ _ _ (3 * length seq + 1) Hrun) by lia.
    reflexivity.
  - exists st. exact Hrun.
  - intros fuel Hfuel. apply main_loop_starved; [apply invariant_init|].
    unfold len. cbn. lia.
Qed.

(** *** The state in which the main loop ends *)

Lemma edge_bounded_snoc (e : Z) bl (L : Z) :
  edge_bounded e bl -> len bl + L <= e -> edge_bounded e (bl ++ [L]).
Proof.
  intros Hb HL k L' Hk.
  apply lookup_app_Some in Hk as [Hk|[Hge Hk]]; [apply Hb, Hk|].
  apply list_lookup_singleton_Some in Hk as [Hk ->]. unfold len in HL. lia.
Qed.

Lemma inner_loop_edge (e a b : Z) (cnt : nat) : forall j bl r,
  Z.of_nat cnt = j - (2 * a - 1) -> len bl = 2 * (a + b) - j -> 2 * b <= e ->
  edge_bounded e bl ->
  inner_loop (2 * a - 1) (range_down j (2 * a - 1)) bl = Ok r ->
  edge_bounded e (scanned_list r).
Proof.
  induction cnt as [|cnt IH]; intros j bl r Hcnt Hlen He Hb Hrun.
  - rewrite range_down_nil in Hrun by lia. injection Hrun as <-. exact Hb.
  - rewrite range_down_cons in Hrun by lia. cbn [inner_loop] in Hrun.
    destruct (index bl j) as [x| |]; cbn [mbind result_bind] in Hrun;
      try discriminate.
    destruct (x =? j - (2 * a - 1) - 1).
    + injection Hrun as <-. exact Hb.
    + apply (IH (j - 1) _ r) in Hrun; try assumption; try lia.
      * rewrite len_snoc. lia.
      * apply edge_bounded_snoc; [exact Hb|lia].
Qed.

Lemma loop_body_edge seq st st' :
  invariant seq st -> cursor st < len seq -> loop_body seq st = Ok st' ->
  edge_bounded (2 * len seq - 2) (best_lengths st) ->
  edge_bounded (2 * len seq - 2) (best_lengths st').
Proof.
  destruct st as [i p bl]. unfold invariant, loop_body.
  cbn [cursor pal_len best_lengths]. intros (Hp & Hlen & _) Hi Hbody Hb.
  pose proof Hp as (H0 & H1 & H2 & _).
  destruct (can_extend seq i p) as [[|]| |]; cbn [mbind result_bind] in Hbody;
    try discriminate.
  - injection Hbody as <-. exact Hb.
  - unfold emit, scan in Hbody. cbv zeta in Hbody. rewrite len_snoc in Hbody.
    replace (len bl + 1 - 2 - p) with (2 * (i - p) - 1) in Hbody by lia.
    destruct (inner_loop _ _ _) as [r| |] eqn:Hrun;
      cbn [mbind result_bind] in Hbody; try discriminate.
    apply (inner_loop_edge (2 * len seq - 2) (i - p) i (Z.to_nat p)) in Hrun;
      try lia.
    + destruct r; injection Hbody as <-; exact Hrun.
    + rewrite len_snoc. lia.
    + apply edge_bounded_snoc; [exact Hb|lia].
Qed.

Lemma reachable_edge seq st :
  reachable seq st -> edge_bounded (2 * len seq - 2) (best_lengths st).
Proof.
  induction 1 as [|st st' Hreach IH Hlt Hbody].
  - intros k L Hk. cbn [best_lengths] in Hk. rewrite lookup_nil in Hk. discriminate.
  - apply (loop_body_edge seq st st'); try assumption.
    apply reachable_invariant, Hreach.
Qed.

Lemma main_loop_reachable seq (fuel : nat) : forall st st',
  reachable seq st -> main_loop fuel seq st = Ok st' -> reachable seq st'.
Proof.
  induction fuel as [|fuel IH]; intros st st' Hreach Hrun; cbn [main_loop] in Hrun;
    destruct (cursor st <? len seq) eqn:E; try discriminate;
    try (injection Hrun as <-; exact Hreach).
  destruct (loop_body seq st) as [st1| |] eqn:Hb; cbn [mbind result_bind] in Hrun;
    try discriminate.
  apply (IH st1); [|exact Hrun]. apply (reach_step seq st); [exact Hreach|lia|exact Hb].
Qed.

(** X9. When the main loop ends, the cursor is at the end of the sequence
    and [pal_len] is the length of its longest palindromic suffix: the last
    [pal_len] elements are a palindrome and no longer suffix is. *)
Theorem exit_longest_suffix seq :
  exists st, main_loop (3 * length seq + 1) seq (State 0 0 []) = Ok st /\
    cursor st = len seq /\ 0 <= pal_len st <= len seq /\
    slice seq (len seq - pal_len st) (len seq) =
      reverse (slice seq (len seq - pal_len st) (len seq)) /\
    (forall a, 0 <= a <= len seq ->
       slice seq a (len seq) = reverse (slice seq a (len seq)) ->
       len seq - a <= pal_len st).
Proof.
  destruct (main_loop_spec seq (3 * length seq + 1) (State 0 0 [])
              (invariant_init seq)) as (st & Hrun & Hinv & Hi).
  { unfold potential, len. cbn. lia. }
  pose proof (main_loop_reachable seq _ _ _ (reach_init seq) Hrun) as Hreach.
  pose proof (reachable_edge seq st Hreach) as Hedge.
  destruct Hinv as (Hp & Hlen & Hc). rewrite Hi in *.
  pose proof Hp as (H0 & H1 & H2 & _).
  exists st. split; [exact Hrun|]. split; [exact Hi|]. split; [lia|]. split.
  - apply pal_slice; assumption.
  - intros a Ha Hs. apply pal_slice in Hs; try lia.
    destruct (decide (len seq - a <= pal_len st)) as [|Hgt]; [assumption|].
    exfalso.
    destruct (index_ok (best_lengths st) (a + len seq)) as (L & HL & _); [lia|].
    pose proof (Hedge _ _ HL) as Hk. rewrite Z2Nat.id in Hk by lia.
    apply Hc in HL as (a' & b' & Hab & HLb & Hmax). rewrite Z2Nat.id in Hab by lia.
    pose proof (maximal_longest seq a' b' _ _ Hmax Hs (eq_sym Hab)).
    destruct Hmax as ((_ & _ & B2 & _) & _). lia.
Qed.

End Theory.

(** ** Runs on literal inputs *)

(** C9. On the literal inputs the engine and the oracle both give the
    documented profiles: for ["ababa"], for ["yabbadabbadoo"] and for the
    empty string. *)
Theorem literal_profiles :
  fast_longest_palindromes (chars "ababa") =
    Ok [0; 1; 0; 3; 0; 5; 0; 3; 0; 1; 0] /\
  naive_longest_palindromes (chars "ababa") =
    Ok [0; 1; 0; 3; 0; 5; 0; 3; 0; 1; 0] /\
  fast_longest_palindromes (chars "yabbadabbadoo") =
    Ok [0; 1; 0; 1; 0; 1; 4; 1; 0; 1; 0; 9; 0; 1; 0; 1; 6; 1; 0; 1; 0; 1;
        0; 1; 2; 1; 0] /\
  naive_longest_palindromes (chars "yabbadabbadoo") =
    Ok [0; 1; 0; 1; 0; 1; 4; 1; 0; 1; 0; 9; 0; 1; 0; 1; 6; 1; 0; 1; 0; 1;
        0; 1; 2; 1; 0] /\
  fast_longest_palindromes (chars "") = Ok [0] /\
  naive_longest_palindromes (chars "") = Ok [0].
Proof. repeat split; vm_compute; reflexivity. Qed.

(** The run on ["aa"] reaches the test of the main loop with [i = 1],
    [pal_len = 0] and two entries emitted. *)
Lemma reachable_aa : reachable (chars "aa") (State 1 0 [0; 1]).
Proof.
  apply (reach_step _ (State 1 1 [0])); [|reflexivity|reflexivity].
  apply (reach_step _ (State 0 0 [])); [|reflexivity|reflexivity].
  apply reach_init.
Qed.

(** The cursor does not stay in place on the extension path: on ["aa"] the
    iteration entered with [i = 1] and [pal_len = 0] takes that path and
    leaves with [i = 2]. *)
Lemma extension_advances_cursor :
  let seq := chars "aa" in
  let st := State 1 0 [0; 1] in
  reachable seq st /\ cursor st < len seq /\
  can_extend seq (cursor st) (pal_len st) = Ok true /\
  loop_body seq st = Ok (State 2 2 [0; 1]) /\
  cursor (State 2 2 [0; 1]) <> cursor st.
Proof.
  cbv zeta. split; [exact reachable_aa|].
  split; [reflexivity|]. split; [reflexivity|]. split; [reflexivity|].
  cbn. discriminate.
Qed.

(** ** Instances *)

(** The run on ["abab"] reaches the test of the main loop with [i = 3] and
    [pal_len = 3]: the iteration that follows emits 3, copies one entry in
    its inner loop and leaves it by [break]. *)
Lemma reachable_abab : reachable (chars "abab") (State 3 3 [0; 1; 0]).
Proof.
  apply (reach_step _ (State 2 1 [0; 1; 0])); [|reflexivity|reflexivity].
  apply (reach_step _ (State 1 0 [0; 1])); [|reflexivity|reflexivity].
  apply (reach_step _ (State 1 1 [0])); [|reflexivity|reflexivity].
  apply (reach_step _ (State 0 0 [])); [|reflexivity|reflexivity].
  apply reach_init.
Qed.

Lemma naive_entry_longest_witness :
  let seq := chars "ababa" in
  let k := 5 in
  0 <= k <= 2 * len seq /\
  exists profile L, naive_longest_palindromes seq = Ok profile /\
    index profile k = Ok L /\
    let start := k `div` 2 - L `div` 2 in
    0 <= L /\ 0 <= start /\ start + L <= len seq /\
    slice seq start (start + L) = reverse (slice seq start (start + L)) /\
    (0 < start -> start + L < len seq ->
     slice seq (start - 1) (start + L + 1) <>
     reverse (slice seq (start - 1) (start + L + 1))) /\
    (forall a b, 0 <= a -> a <= b -> b <= len seq -> a + b = k ->
     slice seq a b = reverse (slice seq a b) -> b - a <= L).
Proof.
  cbv zeta.
  assert (0 <= 5 <= 2 * len (chars "ababa")) as Hk by (unfold len; cbn; lia).
  split; [exact Hk|]. exact (naive_entry_longest (chars "ababa") 5 Hk).
Defined.

Lemma parity_entries_witness :
  let seq := chars "ababa" in
  let k := 5 in
  0 <= k <= 2 * len seq /\
  exists profile L, fast_longest_palindromes seq = Ok profile /\
    naive_longest_palindromes seq = Ok profile /\
    index profile k = Ok L /\ L `mod` 2 = k `mod` 2.
Proof.
  cbv zeta.
  assert (0 <= 5 <= 2 * len (chars "ababa")) as Hk by (unfold len; cbn; lia).
  split; [exact Hk|]. exact (parity_entries (chars "ababa") 5 Hk).
Defined.

Lemma main_loop_invariants_witness :
  let seq := chars "abab" in
  let st := State 3 3 [0; 1; 0] in
  reachable seq st /\
  (0 <= cursor st - pal_len st /\ cursor st <= len seq /\
   slice seq (cursor st - pal_len st) (cursor st) =
   reverse (slice seq (cursor st - pal_len st) (cursor st))) /\
  (len (best_lengths st) >= 2 * cursor st - pal_len st /\
   forall st', cursor st < len seq ->
     can_extend seq (cursor st) (pal_len st) = Ok true ->
     loop_body seq st = Ok st' ->
     len (best_lengths st') >= 2 * cursor st' - pal_len st') /\
  (len (best_lengths st) < 2 * cursor st + 1 /\
   forall js1 j js2 bl',
     let bl := best_lengths st ++ [pal_len st] in
     let start := len bl - 2 in
     let end_ := start - pal_len st in
     range_down start end_ = js1 ++ j :: js2 ->
     inner_loop end_ js1 bl = Ok (Exhausted bl') ->
     len bl' < 2 * cursor st + 1).
Proof.
  cbv zeta. split; [exact reachable_abab|].
  exact (main_loop_invariants (chars "abab") (State 3 3 [0; 1; 0]) reachable_abab).
Defined.

(** ** Renaming the elements *)

Section Relabel.

Context {A B : Type} `{EqDecision A} `{EqDecision B} (f : A -> B).

Hypothesis f_inj : forall x y : A, f x = f y -> x = y.

Lemma len_fmap (seq : list A) : len (f <$> seq) = len seq.
Proof. unfold len. rewrite length_fmap. reflexivity. Qed.

Lemma elt_fmap (seq : list A) (t : Z) : elt (f <$> seq) t = f <$> elt seq t.
Proof. unfold elt. apply list_lookup_fmap. Qed.

Lemma maximal_fmap (seq : list A) (a b : Z) :
  maximal seq a b -> maximal (f <$> seq) a b.
Proof.
  intros [Hp Hne]. pose proof Hp as (H0 & H1 & H2 & _). split.
  - unfold pal. rewrite len_fmap. repeat split; try lia.
    intros t Ht. rewrite !elt_fmap. f_equal. apply (pal_elt seq a b); assumption.
  - intros (E0 & E1 & E2). rewrite len_fmap in E1. rewrite !elt_fmap in E2.
    apply Hne. repeat split; try lia.
    destruct (elt seq (a - 1)) as [x|], (elt seq b) as [y|]; cbn in E2;
      try discriminate; [|reflexivity].
    injection E2 as E2. f_equal. apply f_inj, E2.
Qed.

Lemma correct_fmap (seq : list A) (bl : list Z) :
  correct seq bl -> correct (f <$> seq) bl.
Proof.
  intros Hc k L Hk. apply Hc in Hk as (a & b & Hab & HL & Hmax).
  exists a, b. split; [exact Hab|]. split; [exact HL|]. apply maximal_fmap, Hmax.
Qed.

(** X10. The profile depends on the elements only through which of them are
    equal: renaming them by an injective function changes the result of
    neither function. *)
Theorem relabel_invariant (seq : list A) :
  fast_longest_palindromes (f <$> seq) = fast_longest_palindromes seq /\
  naive_longest_palindromes (f <$> seq) = naive_longest_palindromes seq.
Proof.
  destruct (fast_naive_agree seq) as (bl & Hf & Hn & Hlen & Hc).
  destruct (fast_naive_agree (f <$> seq)) as (bl' & Hf' & Hn' & Hlen' & Hc').
  assert (bl' = bl) as ->.
  { apply (correct_unique (f <$> seq)); [assumption|apply correct_fmap; assumption|].
    rewrite len_fmap in Hlen'. unfold len in *. lia. }
  split; congruence.
Qed.

End Relabel.

(** ** Instances of the further properties *)

Lemma palindrome_test_witness :
  let seq := chars "yabbadabbadoo" in
  let a := 1 in
  let b := 10 in
  (0 <= a /\ a <= b /\ b <= len seq) /\
  exists profile L, fast_longest_palindromes seq = Ok profile /\
    naive_longest_palindromes seq = Ok profile /\
    index profile (a + b) = Ok L /\
    (slice seq a b = reverse (slice seq a b) <-> b - a <= L).
Proof.
  cbv zeta.
  assert (0 <= 1 /\ 1 <= 10 /\ 10 <= len (chars "yabbadabbadoo")) as (H0 & H1 & H2)
    by (unfold len; cbn; lia).
  split; [repeat split; assumption|].
  exact (palindrome_test (chars "yabbadabbadoo") 1 10 H0 H1 H2).
Defined.

Lemma entry_bounds_witness :
  let seq := chars "ababa" in
  let k := 7 in
  0 <= k <= 2 * len seq /\
  exists profile L, fast_longest_palindromes seq = Ok profile /\
    naive_longest_palindromes seq = Ok profile /\
    index profile k = Ok L /\
    k `mod` 2 <= L <= Z.min k (2 * len seq - k).
Proof.
  cbv zeta.
  assert (0 <= 7 <= 2 * len (chars "ababa")) as Hk by (unfold len; cbn; lia).
  split; [exact Hk|]. exact (entry_bounds (chars "ababa") 7 Hk).
Defined.

Lemma mirror_law_witness :
  let seq := chars "yabbadabbadoo" in
  let k := 11 in
  let m := 5 in
  (0 <= k <= 2 * len seq /\ 1 <= m) /\
  exists profile L, fast_longest_palindromes seq = Ok profile /\
    naive_longest_palindromes seq = Ok profile /\
    index profile k = Ok L /\
    (m <= L ->
     exists x y, index profile (k - m) = Ok x /\ index profile (k + m) = Ok y /\
       Z.min (L - m) x <= y /\ (x <> L - m -> y = Z.min (L - m) x)).
Proof.
  cbv zeta.
  assert (0 <= 11 <= 2 * len (chars "yabbadabbadoo")) as Hk by (unfold len; cbn; lia).
  assert (1 <= 5) as Hm by lia.
  split; [split; assumption|].
  exact (mirror_law (chars "yabbadabbadoo") 11 5 Hk Hm).
Defined.

Lemma identical_elements_profile_witness :
  let x := Ascii.ascii_of_nat 97 in
  let m := 4%nat in
  let k := 5 in
  0 <= k <= 2 * Z.of_nat m /\
  exists profile, fast_longest_palindromes (replicate m x) = Ok profile /\
    naive_longest_palindromes (replicate m x) = Ok profile /\
    index profile k = Ok (Z.min k (2 * Z.of_nat m - k)).
Proof.
  cbv zeta.
  assert (0 <= 5 <= 2 * Z.of_nat 4) as Hk by lia.
  split; [exact Hk|].
  exact (identical_elements_profile (Ascii.ascii_of_nat 97) 4 5 Hk).
Defined.

Lemma context_entries_witness :
  let pre := chars "ya" in
  let seq := chars "bbadabb" in
  let post := chars "adoo" in
  let k := 7 in
  0 <= k <= 2 * len seq /\
  exists profile profile' L L',
    fast_longest_palindromes seq = Ok profile /\
    fast_longest_palindromes (pre ++ seq ++ post) = Ok profile' /\
    index profile k = Ok L /\
    index profile' (2 * len pre + k) = Ok L' /\
    L <= L' /\
    (0 < k - L -> k + L < 2 * len seq -> L' = L).
Proof.
  cbv zeta.
  assert (0 <= 7 <= 2 * len (chars "bbadabb")) as Hk by (unfold len; cbn; lia).
  split; [exact Hk|].
  exact (context_entries (chars "ya") (chars "bbadabb") (chars "adoo") 7 Hk).
Defined.

Lemma relabel_invariant_witness :
  let f := Ascii.nat_of_ascii in
  let seq := chars "abba" in
  (forall x y, f x = f y -> x = y) /\
  fast_longest_palindromes (f <$> seq) = fast_longest_palindromes seq /\
  naive_longest_palindromes (f <$> seq) = naive_longest_palindromes seq.
Proof.
  cbv zeta.
  assert (forall x y, Ascii.nat_of_ascii x = Ascii.nat_of_ascii y -> x = y) as Hinj.
  { intros x y E. rewrite <- (Ascii.ascii_nat_embedding x), E.
    apply Ascii.ascii_nat_embedding. }
  split; [exact Hinj|].
  exact (relabel_invariant Ascii.nat_of_ascii Hinj (chars "abba")).
Defined.
